(** * Sharding a metadata+images dataset with a process pool

    A model of [multiprocessing.py]: the per-record packaging function
    [get_item], the batching / collection loop that feeds a
    [ShardWriter], and the writer's rotation policy. *)

From Stdlib Require Import Ascii NArith Lia.
From stdpp Require Import base strings pretty list gmap sorting.

(** ** Python primitives used by the script *)

Module Py.

(** Exceptions the script can raise: [item["id"]] on a record without
    that field, and [read_bytes] on a file that cannot be read. *)
Inductive exn :=
| KeyError (key : string)
| OSError (path : string).

Inductive result (A : Type) :=
| Ok (a : A)
| Raise (e : exn).
Arguments Ok {A} a.
Arguments Raise {A} e.

#[global] Instance result_ret : MRet result := λ A a, Ok a.
#[global] Instance result_bind : MBind result := λ A B k r,
  match r with
  | Ok a => k a
  | Raise e => Raise e
  end.

(** [s.split(sep)] for a one-character separator: never empty. *)
Fixpoint split (sep : ascii) (s : string) : list string :=
  match s with
  | EmptyString => [EmptyString]
  | String c s' =>
      if decide (c = sep) then EmptyString :: split sep s'
      else match split sep s' with
           | w :: ws => String c w :: ws
           | [] => [String c EmptyString]
           end
  end.

(** [l[0]] on the result of [split]. *)
Definition first (l : list string) : string :=
  match l with
  | w :: _ => w
  | [] => EmptyString
  end.

(** [sorted] on a list of [str]: code-point order. *)
Definition sorted (l : list string) : list string := merge_sort String.le l.

(** [str(n)] for a natural number. *)
Definition str (n : nat) : string := pretty n.

End Py.

Import Py.


(** ** Data *)

(** A metadata field value, as it comes out of JSON or a database. *)
Inductive json :=
| JNull
| JBool (b : bool)
| JInt (z : Z)
| JStr (s : string).

#[global] Instance json_eq_dec : EqDecision json.
Proof. solve_decision. Defined.

Abbreviation record := (gmap string json).
Abbreviation bytes := (list Byte.byte).

(** A value stored in the dictionary [get_item] returns. *)
Inductive pyval :=
| VField (j : json)
| VRecord (r : gmap string json)
| VBytes (b : list Byte.byte).

Abbreviation sample := (gmap string pyval).

(** [filename_prefix == item["id"]]: a [str] equals only an equal [str]. *)
Definition str_eq (s : string) (v : json) : bool :=
  match v with
  | JStr t => bool_decide (s = t)
  | _ => false
  end.

(** ** [get_item] *)

Section get_item.

(** [files = os.listdir(IMAGE_BASE)] and the contents of the readable
    files of that directory, by name. *)
Variable files : list string.
Variable image_base : gmap string (list Byte.byte).

Definition getitem (item : gmap string json) (key : string) : result json :=
  match item !! key with
  | Some v => Ok v
  | None => Raise (KeyError key)
  end.

Definition read_bytes (file : string) : result (list Byte.byte) :=
  match image_base !! file with
  | Some b => Ok b
  | None => Raise (OSError file)
  end.

(** [f"{idx+1}.jpg"] *)
Definition slot (idx : nat) : string := str (idx + 1) +:+ ".jpg".

(** Lines 37-39: the sorted names whose first [_]-separated field is the id. *)
Definition item_files (id : json) : list string :=
  sorted (filter (λ filename, str_eq (first (split "_" filename)) id = true) files).

(** Lines 40-43: the comprehension over [enumerate(item_files)], entry
    by entry, starting at [idx] with the dictionary built so far. *)
Fixpoint comprehension (idx : nat) (names : list string)
    (d : gmap string (list Byte.byte)) : result (gmap string (list Byte.byte)) :=
  match names with
  | [] => Ok d
  | file :: names' =>
      b ← read_bytes file;
      comprehension (S idx) names' (<[slot idx := b]> d)
  end.

(** [d1.update(d2)]: the entries of [d2] are stored into [d1]. *)
Definition update (d1 : gmap string pyval) (d2 : gmap string (list Byte.byte)) :
    gmap string pyval :=
  (VBytes <$> d2) ∪ d1.

(** [item["id"]] is looked up first by the filter's lambda (or, with an
    empty listing, by line 44): a record without it raises the same
    [KeyError] before any file is read. *)
Definition get_item (item : gmap string json) : result (gmap string pyval) :=
  id ← getitem item "id";
  payload ← comprehension 0 (item_files id) ∅;
  Ok (update (<["json" := VRecord item]> {["__key__" := VField id]}) payload).

End get_item.


(** ** Notions used to state the properties *)

(** The part of [s] before its first [sep] (all of [s] when it has none). *)
Fixpoint prefix_upto (sep : ascii) (s : string) : string :=
  match s with
  | EmptyString => EmptyString
  | String c s' => if decide (c = sep) then EmptyString else String c (prefix_upto sep s')
  end.

(** [p] is what comes before the first [sep] of [s], said without recursion:
    [p] has no [sep], and [s] is [p] or [p], a [sep], and a rest. *)
Definition before_first (sep : ascii) (p s : string) : Prop :=
  (∀ u v, p ≠ u +:+ String sep v) ∧ (s = p ∨ ∃ rest, s = p +:+ String sep rest).

(** The futures [futs] all succeeded, with the results [outs]. *)
Definition succeeded {A B : Type} (futs : list (A * result B)) (outs : list B) : Prop :=
  Forall2 (λ fut out, fut.2 = Ok out) futs outs.

(** [batches] cuts a list into consecutive batches of [n], the last one
    of 1 to [n]. *)
Fixpoint batches_of {A : Type} (n : nat) (batches : list (list A)) : Prop :=
  match batches with
  | [] => True
  | [b] => 0 < length b ≤ n
  | b :: rest => length b = n ∧ batches_of n rest
  end.

(** ** The shard writer *)

Module Writer.

Section ShardWriter.

Context {Item : Type}.

(** The bytes that writing one item adds to the current shard. *)
Variable written_bytes : Item → N.

Record ShardingPolicy := {
  maxCount : nat;
  maxSizeBytes : N;
}.

(** Modelled from the spec: [wds.ShardWriter] comes from the webdataset
    package, not from this repository. The state is the spec's ShardState
    together with the shards on disk: the closed ones, oldest first, and
    the records of the open one. *)
Record ShardWriter := {
  index : nat;
  currentCount : nat;
  currentSizeBytes : N;
  closed : list (list Item);
  current : list Item;
}.

(** Modelled from the spec: the writer as it is opened, on shard 0. *)
Definition opened : ShardWriter :=
  {| index := 0; currentCount := 0; currentSizeBytes := 0; closed := []; current := [] |}.

(** Modelled from the spec: the check made before accepting the next
    item, [currentCount >= maxCount OR currentSizeBytes >= maxSizeBytes]. *)
Definition full (pol : ShardingPolicy) (w : ShardWriter) : bool :=
  (maxCount pol <=? currentCount w) || (maxSizeBytes pol <=? currentSizeBytes w)%N.

(** Modelled from the spec: close the current shard, open a new one with
    [index += 1], reset the counters to zero. *)
Definition rotate (w : ShardWriter) : ShardWriter :=
  {| index := index w + 1; currentCount := 0; currentSizeBytes := 0;
     closed := closed w ++ [current w]; current := [] |}.

(** Modelled from the spec: what happens before the next item is
    accepted. *)
Definition accept (pol : ShardingPolicy) (w : ShardWriter) : ShardWriter :=
  if full pol w then rotate w else w.

(** Modelled from the spec: [write(item)]: rotate if a cap is reached,
    then store the item and update [currentCount += 1] and
    [currentSizeBytes += writtenBytes]. *)
Definition write (pol : ShardingPolicy) (w : ShardWriter) (item : Item) : ShardWriter :=
  let w := accept pol w in
  {| index := index w;
     currentCount := currentCount w + 1;
     currentSizeBytes := currentSizeBytes w + written_bytes item;
     closed := closed w;
     current := current w ++ [item] |}.

(** Modelled from the spec: every shard, oldest first, and every record
    written, in order. *)
Definition shards (w : ShardWriter) : list (list Item) := closed w ++ [current w].
Definition written (w : ShardWriter) : list Item := concat (shards w).

End ShardWriter.

Arguments ShardWriter Item : clear implicits.

End Writer.

Import Writer.

(** [ShardWriter(..., maxcount=1000, maxsize=3e9)] *)
Definition sink_policy : ShardingPolicy := {| maxCount := 1000; maxSizeBytes := 3000000000 |}.

(** ** The batching and collection loop *)

Module Loop.

Inductive outcome :=
| Completed
| Aborted (e : exn).

Section main.

Variable files : list string.
Variable image_base : gmap string (list Byte.byte).

(** The sink and its [write] method. *)
Context {Sink : Type}.
Variable sink_write : Sink → gmap string pyval → Sink.

(** [items[:10000]] and [len(results) > 1000]. *)
Variable batch_size : nat.
Variable flush_threshold : nat.

(** A future: the record it was submitted for (the value [futures] maps
    it to) and what [future.result()] gives. *)
Definition future : Type := gmap string json * result (gmap string pyval).

(** [as_completed], for the futures of the [n]-th batch: the order in
    which the workers finish them. *)
Variable as_completed : nat → list future → list future.

Record state := {
  items : list (gmap string json);
  results : list (gmap string pyval);
  sink : Sink;
  (** every record handed to [executor.submit]; the executor runs all of
      them, also when the block is left by an exception *)
  submitted : list (gmap string json);
}.

(** Lines 81-82 *)
Definition submit (batch : list (gmap string json)) : list future :=
  map (λ item, (item, get_item files image_base item)) batch.

(** [for result in results: sink.write(result)] *)
Definition flush (results : list (gmap string pyval)) (s : Sink) : Sink :=
  foldl sink_write s results.

(** Lines 84-92: the loop over the completed futures. An exception of
    [future.result()] ends it. *)
Fixpoint collect (completed : list future) (results : list (gmap string pyval))
    (s : Sink) : list (gmap string pyval) * Sink * option exn :=
  match completed with
  | [] => (results, s, None)
  | fut :: completed' =>
      match fut.2 with
      | Raise e => (results, s, Some e)
      | Ok result =>
          let results := results ++ [result] in
          if decide (flush_threshold < length results)
          then collect completed' [] (flush results s)
          else collect completed' results s
      end
  end.

(** Lines 78-92: [while items], the [n]-th batch being the next one.
    [None]: out of fuel. *)
Fixpoint while_items (fuel n : nat) (st : state) : option (state * option exn) :=
  match items st with
  | [] => Some (st, None)
  | _ :: _ =>
      match fuel with
      | 0 => None
      | S fuel' =>
          let batch := take batch_size (items st) in
          let futures := submit batch in
          let submitted' := submitted st ++ batch in
          let items' := drop batch_size (items st) in
          match collect (as_completed n futures) (results st) (sink st) with
          | (results', sink', Some e) =>
              Some ({| items := items'; results := results'; sink := sink';
                       submitted := submitted' |}, Some e)
          | (results', sink', None) =>
              while_items fuel' (S n)
                {| items := items'; results := results'; sink := sink';
                   submitted := submitted' |}
          end
      end
  end.

(** Lines 76-94. An exception leaves both [with] blocks at once; without
    one the remaining results are written (the list itself is kept). *)
Definition run (fuel : nat) (input : list (gmap string json)) (s : Sink) :
    option (state * outcome) :=
  match while_items fuel 0 {| items := input; results := []; sink := s; submitted := [] |} with
  | None => None
  | Some (st, Some e) => Some (st, Aborted e)
  | Some (st, None) =>
      Some ({| items := items st; results := results st;
               sink := flush (results st) (sink st);
               submitted := submitted st |}, Completed)
  end.

(** The futures of a whole input in the order the loop meets them, batch
    after batch, when none of them fails. *)
Fixpoint stream (fuel n : nat) (input : list (gmap string json)) : list future :=
  match input, fuel with
  | [], _ => []
  | _ :: _, 0 => []
  | _ :: _, S fuel' =>
      as_completed n (submit (take batch_size input))
        ++ stream fuel' (S n) (drop batch_size input)
  end.

(** The futures of the first [k] batches of an input, the first of them
    being the [n]-th batch of the run, in the order of completion. *)
Fixpoint completions (n k : nat) (input : list (gmap string json)) : list future :=
  match k with
  | 0 => []
  | S k' =>
      as_completed n (submit (take batch_size input))
        ++ completions (S n) k' (drop batch_size input)
  end.

End main.

Arguments state Sink : clear implicits.

End Loop.

Import Loop.

(** ** The script *)


(** ** A small directory and its records, for the examples *)

Definition listing : list string :=
  ["42_2.jpg"; "7_b.jpg"; "42_1.jpg"; "9_0.jpg"; "42_0.jpg"; "7_a.jpg"].

Definition directory : gmap string (list Byte.byte) :=
  <["42_0.jpg" := [Byte.x00] ]>
    (<["42_1.jpg" := [Byte.x01] ]>
      (<["42_2.jpg" := [Byte.x02] ]>
        (<["7_a.jpg" := [Byte.x0a] ]> {["7_b.jpg" := [Byte.x0b] ]}))).

Definition record_7 : gmap string json := <["id" := JStr "7"]> {["label" := JInt 3]}.
Definition record_9 : gmap string json := {["id" := JStr "9"]}.
Definition record_42 : gmap string json := {["id" := JStr "42"]}.
Definition record_5 : gmap string json := {["id" := JStr "5"]}.

Definition packaged_7 : gmap string pyval :=
  update (<["json" := VRecord record_7]> {["__key__" := VField (JStr "7")]})
    (<["1.jpg" := [Byte.x0a] ]> {["2.jpg" := [Byte.x0b] ]}).

Definition packaged_42 : gmap string pyval :=
  update (<["json" := VRecord record_42]> {["__key__" := VField (JStr "42")]})
    (<["1.jpg" := [Byte.x00] ]> (<["2.jpg" := [Byte.x01] ]> {["3.jpg" := [Byte.x02] ]})).

Definition packaged_5 : gmap string pyval :=
  <["json" := VRecord record_5]> {["__key__" := VField (JStr "5")]}.

(** Two completion orders: as submitted, and last submitted first. *)
Definition in_order (n : nat) (l : list future) : list future := l.
Definition reversed (n : nat) (l : list future) : list future := reverse l.

(** A stand-in for the size of a sample in the archive: one 512-byte
    block per entry. *)
Definition entry_bytes (s : gmap string pyval) : N := 512 * N.of_nat (size s).

Definition small_policy : ShardingPolicy := {| maxCount := 2; maxSizeBytes := 3000000000 |}.

(** Five records in batches of 2 with a buffer flushed above 1 result, the
    futures of each batch completing in reverse: the state at the end. *)
Definition five_records : list (gmap string json) :=
  [record_7; record_42; record_5; record_7; record_42].

Definition five_final : state (ShardWriter (gmap string pyval)) :=
  {| items := [];
     results := [packaged_42];
     sink := foldl (write entry_bytes small_policy) opened
               [packaged_42; packaged_7; packaged_7; packaged_5; packaged_42];
     submitted := five_records |}.

(** Five records, the fourth with an unreadable file, in batches of 2, the
    futures completing in the order of submission: the state at the end. *)
Definition failing_records : list (gmap string json) :=
  [record_7; record_42; record_5; record_9; record_42].

Definition failing_final : state (ShardWriter (gmap string pyval)) :=
  {| items := [record_42];
     results := [packaged_5];
     sink := foldl (write entry_bytes small_policy) opened [packaged_7; packaged_42];
     submitted := [record_7; record_42; record_5; record_9] |}.

(** Three records in batches of 2, the futures completing in the order of
    submission: the state at the end. *)
Definition three_records : list (gmap string json) := [record_7; record_42; record_5].

Definition three_final : state (ShardWriter (gmap string pyval)) :=
  {| items := [];
     results := [packaged_5];
     sink := foldl (write entry_bytes small_policy) opened
               [packaged_7; packaged_42; packaged_5];
     submitted := three_records |}.

(** Records whose [id] matches no file name: a number, and a string with
    an underscore. *)
Definition record_int : gmap string json := {["id" := JInt 42]}.
Definition record_underscore : gmap string json := {["id" := JStr "42_1.jpg"]}.

(** ** Facts about the primitives *)

Lemma split_nonempty sep s : split sep s ≠ [].
Proof. destruct s as [|c s]; simpl; [done|]. case_decide; [done|]. by destruct (split sep s). Qed.

Lemma first_split sep s : first (split sep s) = prefix_upto sep s.
Proof.
  induction s as [|c s IH]; simpl; [done|].
  case_decide; [done|].
  destruct (split sep s) as [|w ws] eqn:E; [by destruct (split_nonempty sep s)|].
  simpl in *. by rewrite IH.
Qed.

Lemma prefix_upto_no_sep sep s u v : prefix_upto sep s ≠ u +:+ String sep v.
Proof.
  revert u. induction s as [|c s IH]; intros u; simpl.
  - by destruct u.
  - case_decide as Hc; [by destruct u|].
    destruct u as [|c' u]; intros H; injection H as ? H; [congruence|]. by eapply IH.
Qed.

Lemma prefix_upto_before_first sep s : before_first sep (prefix_upto sep s) s.
Proof.
  split; [apply prefix_upto_no_sep|].
  induction s as [|c s IH]; simpl; [by left|].
  case_decide as Hc; [subst; right; by exists s|].
  destruct IH as [IH|[rest IH]]; [left; by f_equal|].
  right. exists rest.
  change (String c s = String c (prefix_upto sep s +:+ String sep rest)). by f_equal.
Qed.

Lemma before_first_unique sep p s : before_first sep p s → prefix_upto sep s = p.
Proof.
  intros [Hno Hs]. revert s Hs. induction p as [|c p IH]; intros s Hs.
  - destruct Hs as [->|[rest ->]]; simpl; [done|]. by rewrite decide_True.
  - assert (c ≠ sep) as Hc.
    { intros ->. by apply (Hno EmptyString p). }
    assert (∀ u v, p ≠ u +:+ String sep v) as Hno'.
    { intros u v ->. by apply (Hno (String c u) v). }
    destruct Hs as [->|[rest ->]]; simpl; rewrite decide_False by done; f_equal.
    + apply IH; auto.
    + apply IH; eauto.
Qed.

Lemma before_first_iff sep p s : before_first sep p s ↔ prefix_upto sep s = p.
Proof.
  split; [apply before_first_unique|]. intros <-. apply prefix_upto_before_first.
Qed.

Lemma string_length_app (s t : string) :
  String.length (s +:+ t) = String.length s + String.length t.
Proof. induction s as [|c s IH]; [done|]. cbn. by rewrite <-IH. Qed.

Lemma string_app_inj_r (s1 s2 t : string) : s1 +:+ t = s2 +:+ t → s1 = s2.
Proof.
  revert s2. induction s1 as [|c s1 IH]; intros [|c' s2] H; simpl in *.
  - done.
  - apply (f_equal String.length) in H. rewrite !string_length_app in H. simpl in H. lia.
  - apply (f_equal String.length) in H. rewrite !string_length_app in H. simpl in H. lia.
  - injection H as -> H. f_equal. by apply IH.
Qed.

Lemma pretty_N_go_length (x : N) (s : string) :
  String.length s ≤ String.length (pretty_N_go x s).
Proof.
  revert s. induction (N.lt_wf_0 x) as [x _ IH]; intros s.
  assert (x = 0 ∨ 0 < x)%N as [->|?] by lia; [by rewrite pretty_N_go_0|].
  rewrite pretty_N_go_step by done.
  etrans; [|by eapply IH, N.div_lt]. simpl; lia.
Qed.

Lemma str_nonempty n : str n ≠ EmptyString.
Proof.
  unfold str, pretty, pretty_nat, pretty, pretty_N. case_decide; [done|].
  rewrite pretty_N_go_step by lia. intros Hs.
  pose proof (pretty_N_go_length (N.of_nat n `div` 10)
    (String (pretty_N_char (N.of_nat n `mod` 10)) EmptyString)) as Hlen.
  rewrite Hs in Hlen. simpl in Hlen. lia.
Qed.

#[global] Instance str_inj : Inj (=) (=) str.
Proof. unfold str. apply _. Qed.

#[global] Instance slot_inj : Inj (=) (=) slot.
Proof. intros i j H. unfold slot in H. apply string_app_inj_r, (inj str) in H. lia. Qed.

Lemma slot_not_key idx : slot idx ≠ "__key__".
Proof.
  unfold slot. intros H.
  assert (String.length (str (idx + 1)) = 3) as Hlen.
  { apply (f_equal String.length) in H. rewrite string_length_app in H. simpl in H. lia. }
  destruct (str (idx + 1)) as [|a [|b [|c [|d s]]]]; simpl in Hlen; try lia.
  discriminate H.
Qed.

Lemma slot_not_json idx : slot idx ≠ "json".
Proof.
  unfold slot. intros H.
  assert (String.length (str (idx + 1)) = 0) as Hlen.
  { apply (f_equal String.length) in H. rewrite string_length_app in H. simpl in H. lia. }
  destruct (str (idx + 1)) eqn:E; simpl in Hlen; [|lia].
  by apply str_nonempty in E.
Qed.

(** ** What [get_item] builds *)

Section get_item_facts.

Context (files : list string) (image_base : gmap string (list Byte.byte)).

Lemma item_files_Permutation id :
  item_files files id ≡ₚ filter (λ f, str_eq (prefix_upto "_" f) id = true) files.
Proof.
  unfold item_files, sorted. rewrite merge_sort_Permutation.
  erewrite list_filter_iff; [done|]. intros f. by rewrite first_split.
Qed.

Lemma item_files_Sorted id : Sorted String.le (item_files files id).
Proof. apply (Sorted_merge_sort String.le). Qed.

Lemma str_eq_true s v : str_eq s v = true ↔ v = JStr s.
Proof.
  destruct v; simpl; try (split; [discriminate|congruence]).
  rewrite bool_decide_eq_true. split; congruence.
Qed.

Lemma item_files_elem_of id f :
  f ∈ item_files files id ↔ f ∈ files ∧ ∃ p, id = JStr p ∧ before_first "_" p f.
Proof.
  rewrite item_files_Permutation, list_elem_of_filter, str_eq_true.
  split.
  - intros [-> ?]. split; [done|]. eexists; split; [done|]. apply prefix_upto_before_first.
  - intros [? (p & -> & Hp)]. split; [|done]. by rewrite (before_first_unique _ _ _ Hp).
Qed.

(** The comprehension stores the bytes of the [i]-th name under slot
    [idx + i] and leaves every other key as it was. *)
Lemma comprehension_Ok names : ∀ idx d d',
  comprehension image_base idx names d = Ok d' →
  (∀ i f, names !! i = Some f →
      ∃ b, image_base !! f = Some b ∧ d' !! slot (idx + i) = Some b) ∧
  (∀ k, (∀ i, i < length names → k ≠ slot (idx + i)) → d' !! k = d !! k).
Proof.
  induction names as [|file names IH]; intros idx d d' H; simpl in H.
  - injection H as <-. split; [by intros i f ?|done].
  - unfold read_bytes in H. destruct (image_base !! file) as [b|] eqn:Hb; [|done].
    simpl in H. apply IH in H as [Hslots Hrest]. split.
    + intros [|i] f Hi; simpl in Hi.
      * injection Hi as <-. exists b. split; [done|].
        rewrite Hrest, Nat.add_0_r; [apply lookup_insert_eq|].
        intros i _ Heq. apply (inj slot) in Heq. lia.
      * destruct (Hslots i f Hi) as (b' & ? & Hd'). exists b'. split; [done|].
        by replace (idx + S i) with (S idx + i) by lia.
    + intros k Hk. rewrite Hrest.
      * apply lookup_insert_ne. specialize (Hk 0). rewrite Nat.add_0_r in Hk.
        intros Heq. apply Hk; simpl; [lia|done].
      * intros i Hi. replace (S idx + i) with (idx + S i) by lia. apply Hk. simpl; lia.
Qed.

(** Every key of the result was there before or is one of the slots. *)
Lemma comprehension_keys names : ∀ idx d d' k,
  comprehension image_base idx names d = Ok d' →
  is_Some (d' !! k) →
  is_Some (d !! k) ∨ ∃ i, i < length names ∧ k = slot (idx + i).
Proof.
  induction names as [|file names IH]; intros idx d d' k H Hk; simpl in H.
  - injection H as <-. by left.
  - unfold read_bytes in H. destruct (image_base !! file) as [b|]; [|done].
    simpl in H. destruct (IH _ _ _ _ H Hk) as [Hin|(i & Hi & ->)].
    + destruct (decide (k = slot idx)) as [->|Hne].
      * right. exists 0. rewrite Nat.add_0_r. split; [simpl; lia|done].
      * left. by rewrite lookup_insert_ne in Hin.
    + right. exists (S i). split; [simpl; lia|]. f_equal. lia.
Qed.

(** The comprehension succeeds exactly when every name can be read. *)
Lemma comprehension_total names : ∀ idx d,
  Forall (λ f, is_Some (image_base !! f)) names →
  ∃ d', comprehension image_base idx names d = Ok d'.
Proof.
  induction names as [|file names IH]; intros idx d Hall; simpl; [by eexists|].
  apply Forall_cons in Hall as [[b Hb] Hall].
  unfold read_bytes. rewrite Hb. simpl. by apply IH.
Qed.

Lemma get_item_Ok item s :
  get_item files image_base item = Ok s →
  ∃ id payload,
    item !! "id" = Some id ∧
    comprehension image_base 0 (item_files files id) ∅ = Ok payload ∧
    s = update (<["json" := VRecord item]> {["__key__" := VField id]}) payload.
Proof.
  unfold get_item, getitem. intros H.
  destruct (item !! "id") as [id|]; [|done]. simpl in H.
  destruct (comprehension _ _ _ _) as [payload|] eqn:Hc; [|done].
  simpl in H. injection H as <-. by exists id, payload.
Qed.

Lemma update_lookup_bytes d1 d2 k b :
  d2 !! k = Some b → update d1 d2 !! k = Some (VBytes b).
Proof.
  intros H. unfold update. apply lookup_union_Some_l. by rewrite lookup_fmap, H.
Qed.

Lemma update_lookup_other d1 d2 k :
  d2 !! k = None → update d1 d2 !! k = d1 !! k.
Proof.
  intros H. unfold update. apply lookup_union_r. by rewrite lookup_fmap, H.
Qed.

End get_item_facts.

(** ** The loop over the completed futures *)

Section collect_facts.

Context {Sink : Type} (sink_write : Sink → gmap string pyval → Sink).
Context (flush_threshold : nat).

Local Abbreviation collect := (collect sink_write flush_threshold).
Local Abbreviation flush := (flush sink_write).

Lemma flush_app ws1 ws2 s : flush (ws1 ++ ws2) s = flush ws2 (flush ws1 s).
Proof. apply foldl_app. Qed.

Lemma collect_app l1 l2 : ∀ r s,
  collect (l1 ++ l2) r s
  = match collect l1 r s with
    | (r', s', None) => collect l2 r' s'
    | (r', s', Some e) => (r', s', Some e)
    end.
Proof.
  induction l1 as [|fut l1 IH]; intros r s; simpl; [done|].
  destruct (fut.2); [|done]. case_decide; apply IH.
Qed.

(** What one pass over the futures [l] does: the futures [done] met
    before the first failure gave [outs]; the sink received the buffers
    [flushes], each in full; [r'] is what is left in the buffer. *)
Lemma collect_spec l : ∀ r s r' s' oe,
  collect l r s = (r', s', oe) →
  ∃ done outs flushes,
    succeeded done outs ∧
    s' = flush (concat flushes) s ∧
    concat flushes ++ r' = r ++ outs ∧
    (length r ≤ flush_threshold →
       length r' ≤ flush_threshold ∧
       Forall (λ f, length f = S flush_threshold) flushes) ∧
    match oe with
    | None => done = l
    | Some e => ∃ fut rest, l = done ++ fut :: rest ∧ fut.2 = Raise e
    end.
Proof.
  unfold succeeded.
  induction l as [|fut l IH]; intros r s r' s' oe H; simpl in H.
  - injection H as <- <- <-. exists [], [], []. simpl.
    rewrite app_nil_r. repeat split; auto.
  - destruct (fut.2) as [result|e] eqn:Hfut.
    + case_decide as Hlen.
      * apply IH in H as (done & outs & flushes & Hok & -> & Happ & Hbound & Hoe).
        exists (fut :: done), (result :: outs), ((r ++ [result]) :: flushes).
        split; [by constructor|]. split; [by rewrite <-flush_app|].
        split; [simpl in *; rewrite <-!(assoc_L (++)), Happ; done|].
        split.
        { intros Hr. destruct Hbound as [? ?]; [simpl; lia|]. split; [done|].
          constructor; [|done]. rewrite length_app in *. simpl in *. lia. }
        destruct oe as [e|]; [|by subst].
        destruct Hoe as (fut' & rest & -> & ?). by exists fut', rest.
      * apply IH in H as (done & outs & flushes & Hok & -> & Happ & Hbound & Hoe).
        exists (fut :: done), (result :: outs), flushes.
        split; [by constructor|]. split; [done|].
        split; [by rewrite Happ, <-(assoc_L (++))|].
        split; [intros _; apply Hbound; lia|].
        destruct oe as [e|]; [|by subst].
        destruct Hoe as (fut' & rest & -> & ?). by exists fut', rest.
    + injection H as <- <- <-. exists [], [], []. simpl. rewrite app_nil_r.
      repeat split; auto. by exists fut, l.
Qed.

End collect_facts.

(** ** The batching loop *)

Section main_facts.

Context (files : list string) (image_base : gmap string (list Byte.byte)).
Context {Sink : Type} (sink_write : Sink → gmap string pyval → Sink).
Context (batch_size flush_threshold : nat).
Context (as_completed : nat → list future → list future).

Hypothesis batch_size_pos : 0 < batch_size.
Hypothesis as_completed_Permutation : ∀ n l, as_completed n l ≡ₚ l.

Local Abbreviation collect := (collect sink_write flush_threshold).
Local Abbreviation flush := (flush sink_write).
Local Abbreviation submit := (submit files image_base).
Local Abbreviation stream := (stream files image_base batch_size as_completed).
Local Abbreviation while_items :=
  (while_items files image_base sink_write batch_size flush_threshold as_completed).
Local Abbreviation run :=
  (run files image_base sink_write batch_size flush_threshold as_completed).

(** One iteration removes [min batch_size (length input)] records, at
    least one. *)
Lemma length_drop_batch {A} (input : list A) :
  input ≠ [] →
  length (drop batch_size input) = length input - min batch_size (length input) ∧
  1 ≤ min batch_size (length input) ∧
  length (drop batch_size input) < length input.
Proof.
  intros Hne. rewrite length_drop.
  destruct input; [done|]. simpl length. lia.
Qed.

Lemma stream_nil fuel n : stream fuel n [] = [].
Proof. by destruct fuel. Qed.

Lemma stream_cons fuel n input :
  input ≠ [] →
  stream (S fuel) n input
  = as_completed n (submit (take batch_size input))
      ++ stream fuel (S n) (drop batch_size input).
Proof. by destruct input. Qed.

(** Cutting the first batch off a prefix that ends at a batch boundary. *)
Lemma take_drop_batch {A} (input done' rest : list A) :
  drop batch_size input = done' ++ rest →
  take batch_size (take batch_size input ++ done') = take batch_size input ∧
  drop batch_size (take batch_size input ++ done') = done'.
Proof.
  intros Hdrop. destruct (decide (batch_size ≤ length input)) as [Hle|Hgt].
  - rewrite take_app_length', drop_app_length' by (by rewrite length_take_le). done.
  - rewrite drop_ge in Hdrop by lia. symmetry in Hdrop.
    apply app_eq_nil in Hdrop as [-> _]. rewrite app_nil_r.
    rewrite take_take, Nat.min_id. split; [done|].
    apply drop_ge. rewrite length_take. lia.
Qed.

Lemma while_items_nil fuel n st :
  items st = [] → while_items fuel n st = Some (st, None).
Proof. intros E. destruct fuel; simpl; by rewrite E. Qed.

Lemma while_items_cons fuel n st :
  items st ≠ [] →
  while_items (S fuel) n st
  = match collect (as_completed n (submit (take batch_size (items st))))
            (results st) (sink st) with
    | (results', sink', Some e) =>
        Some ({| items := drop batch_size (items st); results := results';
                 sink := sink';
                 submitted := submitted st ++ take batch_size (items st) |}, Some e)
    | (results', sink', None) =>
        while_items fuel (S n)
          {| items := drop batch_size (items st); results := results';
             sink := sink';
             submitted := submitted st ++ take batch_size (items st) |}
    end.
Proof. intros Hne. simpl. by destruct (items st). Qed.

(** The loop ends, having met the futures of the batches it submitted in
    stream order. *)
Lemma while_items_spec fuel : ∀ n st,
  length (items st) ≤ fuel →
  ∃ st' oe done,
    while_items fuel n st = Some (st', oe) ∧
    items st = done ++ items st' ∧
    submitted st' = submitted st ++ done ∧
    collect (stream fuel n done) (results st) (sink st)
    = (results st', sink st', oe) ∧
    (oe = None → items st' = []) ∧
    (∃ k, done = take (k * batch_size) (items st) ∧ (is_Some oe → 1 ≤ k)).
Proof.
  induction fuel as [|fuel IH]; intros n st Hlen.
  - destruct (items st) as [|x l] eqn:E; [|simpl in Hlen; lia].
    exists st, None, []. rewrite while_items_nil, stream_nil by done.
    rewrite !app_nil_r. do 5 (split; [done|]). exists 0. by split; [|intros []].
  - destruct (items st) as [|x l] eqn:E.
    { exists st, None, []. rewrite while_items_nil, stream_nil by done.
      rewrite !app_nil_r. do 5 (split; [done|]). exists 0. by split; [|intros []]. }
    assert (x :: l ≠ []) as Hne by done.
    pose proof (while_items_cons fuel n st) as Hstep.
    rewrite E in Hstep. specialize (Hstep Hne).
    set (batch := take batch_size (x :: l)) in *.
    set (rest := drop batch_size (x :: l)) in *.
    assert (batch ≠ []) as Hbatch.
    { unfold batch. destruct batch_size; [lia|done]. }
    assert (x :: l = batch ++ rest) as Hsplit.
    { unfold batch, rest. by rewrite take_drop. }
    destruct (collect (as_completed n (submit batch)) (results st) (sink st))
      as [[r1 s1] [e|]] eqn:C.
    + eexists _, (Some e), batch. split; [exact Hstep|].
      cbn [items results sink submitted].
      split; [done|]. split; [done|]. split; [|split; [done|]].
      { destruct (take_drop_batch (x :: l) [] rest) as [Ht Hd]; [done|].
        rewrite app_nil_r in Ht, Hd. fold batch in Ht, Hd.
        rewrite stream_cons, Ht, Hd, stream_nil, app_nil_r by done. done. }
      exists 1. rewrite Nat.mul_1_l. done.
    + destruct (IH (S n) {| items := rest; results := r1; sink := s1;
                            submitted := submitted st ++ batch |})
        as (st' & oe & done' & Hrun & Hitems & Hsub & Hcol & Hend & k & Hk & Hk1).
      { cbn [items]. pose proof (length_drop_batch (x :: l) Hne) as (_ & _ & Hlt).
        fold rest in Hlt. simpl in Hlen, Hlt. lia. }
      cbn [items results sink submitted] in *. exists st', oe, (batch ++ done').
      split; [by rewrite Hstep|].
      split; [by rewrite <-(assoc_L (++)), <-Hitems|].
      split; [by rewrite Hsub, (assoc_L (++))|]. split; [|split; [done|]].
      { destruct (take_drop_batch (x :: l) done' (items st')) as [Ht Hd]; [done|].
        fold batch in Ht, Hd.
        rewrite stream_cons, Ht, Hd by (by destruct batch).
        by rewrite collect_app, C. }
      exists (S k). split; [|lia].
      rewrite Hk. unfold batch, rest. rewrite take_take_drop. f_equal.
Qed.

(** The stream of an input is the futures of its consecutive batches,
    each batch in the order its futures completed. *)
Lemma stream_batches fuel : ∀ n input,
  length input ≤ fuel →
  ∃ batches completions,
    concat batches = input ∧
    batches_of batch_size batches ∧
    Forall2 (λ batch comp, comp ≡ₚ submit batch) batches completions ∧
    stream fuel n input = concat completions.
Proof.
  induction fuel as [|fuel IH]; intros n input Hlen.
  - destruct input; [|simpl in Hlen; lia]. by exists [], [].
  - destruct input as [|x l]; [by exists [], []|].
    assert (x :: l ≠ []) as Hne by done.
    rewrite stream_cons by done.
    set (batch := take batch_size (x :: l)). set (rest := drop batch_size (x :: l)).
    destruct (IH (S n) rest) as (batches & comps & Hcat & Hsizes & Hperm & Hstream).
    { pose proof (length_drop_batch (x :: l) Hne) as (_ & _ & ?).
      fold rest in H. simpl in Hlen, H. lia. }
    exists (batch :: batches), (as_completed n (submit batch) :: comps).
    split; [by simpl; rewrite Hcat; unfold batch, rest; rewrite take_drop|].
    split.
    { assert (0 < length batch ≤ batch_size) as Hb.
      { unfold batch. rewrite length_take. simpl. lia. }
      destruct batches as [|b batches]; [done|].
      split; [|done]. unfold batch. apply length_take_le.
      destruct (decide (batch_size ≤ length (x :: l))); [done|].
      assert (rest = []) as Hrest by (apply drop_ge; lia).
      rewrite Hrest in Hcat. simpl in Hcat.
      apply app_eq_nil in Hcat as [-> _].
      destruct batches; simpl in Hsizes; lia. }
    split; [by constructor|]. by rewrite Hstream.
Qed.

Lemma stream_Permutation fuel n input :
  length input ≤ fuel → stream fuel n input ≡ₚ submit input.
Proof.
  revert n input. induction fuel as [|fuel IH]; intros n input Hlen.
  - by destruct input; [|simpl in Hlen; lia].
  - destruct input as [|x l]; [done|].
    assert (x :: l ≠ []) as Hne by done.
    rewrite stream_cons, as_completed_Permutation, IH by
      (try done; pose proof (length_drop_batch (x :: l) Hne); simpl in *; lia).
    unfold submit. by rewrite <-fmap_app, take_drop.
Qed.

Lemma stream_elem_of fuel n input fut :
  length input ≤ fuel →
  fut ∈ stream fuel n input →
  fut.1 ∈ input ∧ fut.2 = get_item files image_base fut.1.
Proof.
  intros Hlen Hin. rewrite stream_Permutation in Hin by done.
  apply list_elem_of_fmap in Hin as (item & -> & ?). done.
Qed.

(** A whole run: the futures [done] met before the first failure (all of
    the stream when there is none) gave [outs]; the sink received the
    buffers [flushes], and in a completed run the rest of the buffer. *)
Lemma run_story fuel input s0 :
  length input ≤ fuel →
  ∃ st o done outs flushes,
    run fuel input s0 = Some (st, o) ∧
    input = submitted st ++ items st ∧
    (∃ k, submitted st = take (k * batch_size) input) ∧
    succeeded done outs ∧
    concat flushes ++ results st = outs ∧
    Forall (λ f, length f = S flush_threshold) flushes ∧
    length (results st) ≤ flush_threshold ∧
    match o with
    | Completed =>
        items st = [] ∧ done = stream fuel 0 input ∧
        sink st = flush (results st) (flush (concat flushes) s0)
    | Aborted e =>
        sink st = flush (concat flushes) s0 ∧
        (∃ k, 1 ≤ k ∧ submitted st = take (k * batch_size) input) ∧
        ∃ fut rest, stream fuel 0 (submitted st) = done ++ fut :: rest ∧
                    fut.2 = Raise e
    end.
Proof.
  intros Hlen. unfold Loop.run.
  destruct (while_items_spec fuel 0
              {| items := input; results := []; sink := s0; submitted := [] |} Hlen)
    as (st & oe & sub & -> & Hitems & Hsub & Hcol & Hend & k & Hk & Hk1).
  cbn [items results sink submitted] in *. rewrite app_nil_l in Hsub.
  apply collect_spec in Hcol as (done & outs & flushes & Hok & Hsink & Happ & Hbound & Hoe).
  destruct Hbound as [Hbuf Hfl]; [simpl; lia|]. simpl in Happ.
  destruct oe as [e|].
  - exists st, (Aborted e), done, outs, flushes.
    split; [done|]. split; [by rewrite Hsub|]. split; [exists k; congruence|].
    do 4 (split; [done|]). split; [done|].
    split; [exists k; split; [by apply Hk1|congruence]|].
    rewrite Hsub. done.
  - specialize (Hend eq_refl). rewrite Hend, app_nil_r in Hitems. subst sub.
    eexists _, Completed, done, outs, flushes.
    cbn [items results sink submitted].
    split; [done|]. split; [by rewrite Hsub, Hend, app_nil_r|].
    split; [exists k; by rewrite Hsub|].
    do 4 (split; [done|]). split; [done|]. split; [done|].
    by rewrite Hsink.
Qed.

Lemma succeeded_fst (futs : list future) outs :
  (∀ fut, fut ∈ futs → fut.2 = get_item files image_base fut.1) →
  succeeded futs outs →
  Forall2 (λ item out, get_item files image_base item = Ok out) (futs.*1) outs.
Proof.
  intros Hfuts Hok. induction Hok as [|fut out futs outs Hout Hok IH]; [constructor|].
  simpl. constructor.
  - rewrite <-Hfuts by apply list_elem_of_here. done.
  - apply IH. intros fut' ?. apply Hfuts. by apply list_elem_of_further.
Qed.

Lemma succeeded_concat_inv (comps : list (list future)) : ∀ outs,
  succeeded (concat comps) outs →
  ∃ outss, outs = concat outss ∧ Forall2 succeeded comps outss.
Proof.
  induction comps as [|comp comps IH]; intros outs Hok; simpl in Hok.
  - apply Forall2_nil_inv_l in Hok as ->. by exists [].
  - apply Forall2_app_inv_l in Hok as (out & outs' & Hout & Hok & ->).
    apply IH in Hok as (outss & -> & Hall).
    exists (out :: outss). split; [done|]. by constructor.
Qed.

Lemma submit_fst batch : (submit batch).*1 = batch.
Proof.
  induction batch as [|item batch IH]; [done|]. simpl. f_equal. exact IH.
Qed.

(** A batch whose futures all succeeded gave the results of its records,
    in the order of completion. *)
Lemma succeeded_batch batch comp out :
  comp ≡ₚ submit batch →
  succeeded comp out →
  ∃ order, order ≡ₚ batch ∧
           Forall2 (λ item o, get_item files image_base item = Ok o) order out.
Proof.
  intros Hperm Hok. exists (comp.*1).
  split; [by rewrite Hperm, submit_fst|].
  apply succeeded_fst; [|done].
  intros fut Hin. rewrite Hperm in Hin.
  apply list_elem_of_fmap in Hin as (item & -> & ?). done.
Qed.

End main_facts.

(** ** The shard writer *)

Section ShardWriter_facts.

Context {Item : Type} (written_bytes : Item → N) (pol : ShardingPolicy).

Local Abbreviation write := (write written_bytes pol).

Lemma full_iff (w : ShardWriter Item) :
  full pol w = true ↔
  maxCount pol ≤ currentCount w ∨ (maxSizeBytes pol ≤ currentSizeBytes w)%N.
Proof.
  unfold full. rewrite orb_true_iff, Nat.leb_le, N.leb_le. done.
Qed.

Lemma write_full w x :
  full pol w = true →
  write w x = {| index := index w + 1; currentCount := 1;
                 currentSizeBytes := written_bytes x;
                 closed := closed w ++ [current w]; current := [x] |}.
Proof. intros H. unfold Writer.write, accept. rewrite H. simpl. done. Qed.

Lemma write_not_full w x :
  full pol w = false →
  write w x = {| index := index w; currentCount := currentCount w + 1;
                 currentSizeBytes := currentSizeBytes w + written_bytes x;
                 closed := closed w; current := current w ++ [x] |}.
Proof. intros H. unfold Writer.write, accept. by rewrite H. Qed.

(** When an item is accepted the shard is fresh or below both caps. *)
Lemma accept_below (w : ShardWriter Item) :
  (currentCount (accept pol w) = 0 ∧ currentSizeBytes (accept pol w) = 0%N
   ∧ current (accept pol w) = []) ∨
  (currentCount (accept pol w) < maxCount pol ∧
   (currentSizeBytes (accept pol w) < maxSizeBytes pol)%N ∧ accept pol w = w).
Proof.
  unfold accept. destruct (full pol w) eqn:Hfull; [by left|right].
  split; [|split; [|done]].
  - destruct (decide (currentCount w < maxCount pol)); [done|].
    assert (full pol w = true) by (apply full_iff; left; lia). congruence.
  - destruct (decide (currentSizeBytes w < maxSizeBytes pol)%N); [done|].
    assert (full pol w = true) by (apply full_iff; right; lia). congruence.
Qed.

Lemma written_write w x : written (write w x) = written w ++ [x].
Proof.
  unfold written, shards, Writer.write, accept.
  destruct (full pol w); simpl; rewrite !concat_app; simpl;
    rewrite ?app_nil_r, <-?(assoc_L (++)); done.
Qed.

Lemma written_foldl xs : ∀ w, written (foldl write w xs) = written w ++ xs.
Proof.
  induction xs as [|x xs IH]; intros w; simpl; [by rewrite app_nil_r|].
  by rewrite IH, written_write, <-(assoc_L (++)).
Qed.

Lemma closed_write w x : closed w `prefix_of` closed (write w x).
Proof.
  unfold Writer.write, accept. destruct (full pol w); simpl; [|done].
  by apply prefix_app_r.
Qed.

Lemma closed_foldl xs : ∀ w, closed w `prefix_of` closed (foldl write w xs).
Proof.
  induction xs as [|x xs IH]; intros w; simpl; [done|].
  etrans; [apply closed_write|apply IH].
Qed.

Lemma count_write w x :
  currentCount w = length (current w) →
  currentCount (write w x) = length (current (write w x)).
Proof.
  intros H. unfold Writer.write, accept.
  destruct (full pol w); simpl; rewrite ?length_app; simpl; lia.
Qed.

Lemma count_foldl xs : ∀ w,
  currentCount w = length (current w) →
  currentCount (foldl write w xs) = length (current (foldl write w xs)).
Proof.
  induction xs as [|x xs IH]; intros w H; simpl; [done|].
  by apply IH, count_write.
Qed.

Lemma shards_total (w : ShardWriter Item) :
  sum_list (length <$> shards w) = length (written w).
Proof.
  unfold written. induction (shards w) as [|s l IH]; simpl; [done|].
  rewrite length_app. f_equal. exact IH.
Qed.

End ShardWriter_facts.

(** ** Whole runs *)

Section run_facts.

Context (files : list string) (image_base : gmap string (list Byte.byte)).
Context {Sink : Type} (sink_write : Sink → gmap string pyval → Sink).
Context (batch_size flush_threshold : nat).
Context (as_completed : nat → list future → list future).

Hypothesis batch_size_pos : 0 < batch_size.
Hypothesis as_completed_Permutation : ∀ n l, as_completed n l ≡ₚ l.

Local Abbreviation run :=
  (run files image_base sink_write batch_size flush_threshold as_completed).

(** A completed run wrote the result of every future of the stream, in
    stream order. *)
Lemma run_completed fuel input s0 st :
  length input ≤ fuel →
  run fuel input s0 = Some (st, Completed) →
  ∃ outs flushes,
    succeeded (stream files image_base batch_size as_completed fuel 0 input) outs ∧
    sink st = foldl sink_write s0 outs ∧
    outs = concat flushes ++ results st ∧
    Forall (λ f, length f = S flush_threshold) flushes ∧
    length (results st) ≤ flush_threshold ∧
    sink st = flush sink_write (results st) (flush sink_write (concat flushes) s0) ∧
    items st = [] ∧ submitted st = input.
Proof.
  intros Hlen Hrun.
  destruct (run_story files image_base sink_write batch_size flush_threshold
              as_completed batch_size_pos fuel input s0 Hlen)
    as (st' & o & done & outs & flushes & Hrun' & Hin & _ & Hok & Hout & Hfl & Hbuf & Ho).
  rewrite Hrun in Hrun'. injection Hrun' as <- <-.
  destruct Ho as (Hitems & -> & Hsink).
  exists outs, flushes. split; [done|].
  split; [by rewrite Hsink, <-flush_app, Hout|].
  do 5 (split; [done|]).
  by rewrite Hin, Hitems, app_nil_r.
Qed.

(** An aborted run: of the futures of the submitted batches, those met
    before the failing one gave [outs]; the sink received the buffers
    flushed until then and nothing more. *)
Lemma run_aborted fuel input s0 st e :
  length input ≤ fuel →
  run fuel input s0 = Some (st, Aborted e) →
  ∃ done fut rest outs flushes k,
    stream files image_base batch_size as_completed fuel 0 (submitted st)
    = done ++ fut :: rest ∧
    fut.2 = Raise e ∧
    succeeded done outs ∧
    concat flushes ++ results st = outs ∧
    sink st = foldl sink_write s0 (concat flushes) ∧
    input = submitted st ++ items st ∧
    1 ≤ k ∧ submitted st = take (k * batch_size) input.
Proof.
  intros Hlen Hrun.
  destruct (run_story files image_base sink_write batch_size flush_threshold
              as_completed batch_size_pos fuel input s0 Hlen)
    as (st' & o & done & outs & flushes & Hrun' & Hin & _ & Hok & Hout & Hfl & Hbuf & Ho).
  rewrite Hrun in Hrun'. injection Hrun' as <- <-.
  destruct Ho as (Hsink & (k & Hk & Hsub) & fut & rest & Hstream & Hfut).
  by exists done, fut, rest, outs, flushes, k.
Qed.

(** Batch by batch: the results of a list of completed batches. *)
Lemma succeeded_batches batches comps outss :
  Forall2 (λ batch comp, comp ≡ₚ submit files image_base batch) batches comps →
  Forall2 succeeded comps outss →
  Forall2 (λ batch out,
             ∃ order, order ≡ₚ batch ∧
                      Forall2 (λ item o, get_item files image_base item = Ok o) order out)
    batches outss.
Proof.
  intros Hperm. revert outss.
  induction Hperm as [|batch comp batches comps Hp Hperm IH]; intros outss Hok.
  - apply Forall2_nil_inv_l in Hok as ->. constructor.
  - apply Forall2_cons_inv_l in Hok as (out & outss' & Hout & Hok & ->).
    constructor; [by eapply succeeded_batch|by apply IH].
Qed.

End run_facts.

(** ** More on [get_item] *)

Section get_item_more.

Context (files : list string) (image_base : gmap string (list Byte.byte)).

(** Where the comprehension fails: at the first name that cannot be read. *)
Lemma comprehension_Raise names : ∀ idx d e,
  comprehension image_base idx names d = Raise e ↔
  ∃ pre f post,
    names = pre ++ f :: post ∧
    Forall (λ g, is_Some (image_base !! g)) pre ∧
    image_base !! f = None ∧ e = OSError f.
Proof.
  induction names as [|file names IH]; intros idx d e; simpl.
  - split; [done|]. intros (pre & f & post & Hnames & _). by destruct pre.
  - unfold read_bytes. destruct (image_base !! file) as [b|] eqn:Hb; simpl.
    + rewrite IH. split.
      * intros (pre & f & post & -> & Hpre & Hf & ->).
        exists (file :: pre), f, post. split; [done|]. split; [|done].
        constructor; [by rewrite Hb|done].
      * intros (pre & f & post & Hnames & Hpre & Hf & ->).
        destruct pre as [|g pre]; simpl in Hnames.
        { injection Hnames as -> ->. congruence. }
        injection Hnames as -> ->. apply Forall_cons in Hpre as [_ Hpre].
        by exists pre, f, post.
    + split.
      * intros [= <-]. exists [], file, names. by repeat split.
      * intros (pre & f & post & Hnames & Hpre & Hf & ->).
        destruct pre as [|g pre]; simpl in Hnames.
        { by injection Hnames as -> ->. }
        injection Hnames as -> ->. apply Forall_cons in Hpre as [[? Hg] _]. congruence.
Qed.

(** The comprehension reads the directory at the given names only. *)
Lemma comprehension_ext (image_base' : gmap string (list Byte.byte)) names : ∀ idx d,
  (∀ f, f ∈ names → image_base !! f = image_base' !! f) →
  comprehension image_base idx names d = comprehension image_base' idx names d.
Proof.
  induction names as [|file names IH]; intros idx d Hsame; simpl; [done|].
  unfold read_bytes. rewrite <-(Hsame file) by apply list_elem_of_here.
  destruct (image_base !! file); simpl; [|done].
  apply IH. intros f Hf. apply Hsame. by apply list_elem_of_further.
Qed.

(** It adds one entry per name when the slots are free. *)
Lemma comprehension_size names : ∀ idx d d',
  (∀ i, d !! slot (idx + i) = None) →
  comprehension image_base idx names d = Ok d' →
  size d' = size d + length names.
Proof.
  induction names as [|file names IH]; intros idx d d' Hfree H; simpl in H.
  - injection H as <-. simpl. lia.
  - unfold read_bytes in H. destruct (image_base !! file) as [b|]; [|done].
    simpl in H. apply IH in H.
    + rewrite H, map_size_insert_None; [simpl; lia|].
      specialize (Hfree 0). by rewrite Nat.add_0_r in Hfree.
    + intros i. rewrite lookup_insert_ne.
      * replace (S idx + i) with (idx + S i) by lia. apply Hfree.
      * intros Heq. apply (inj slot) in Heq. lia.
Qed.

Lemma item_files_nil id :
  (∀ f, f ∈ files → JStr (prefix_upto "_" f) ≠ id) →
  item_files files id = [].
Proof.
  intros Hno. apply Permutation_nil_r. rewrite item_files_Permutation.
  induction files as [|f l IH]; [done|].
  rewrite filter_cons. destruct (decide _) as [Heq|_].
  - apply str_eq_true in Heq. destruct (Hno f); [apply list_elem_of_here|done].
  - apply IH. intros g Hg. apply Hno. by apply list_elem_of_further.
Qed.

Lemma get_item_no_files item id :
  item !! "id" = Some id →
  (∀ f, f ∈ files → JStr (prefix_upto "_" f) ≠ id) →
  get_item files image_base item
  = Ok (<["json" := VRecord item]> {["__key__" := VField id]}).
Proof.
  intros Hid Hno. unfold get_item, getitem. rewrite Hid. cbn [mbind result_bind].
  rewrite (item_files_nil id Hno). simpl. f_equal.
  all: unfold update; by rewrite fmap_empty, (left_id_L ∅ (∪)).
Qed.

Lemma item_files_of_filter id :
  item_files files id ≡ₚ filter (λ f, id = JStr (prefix_upto "_" f)) files.
Proof.
  rewrite item_files_Permutation. erewrite list_filter_iff; [done|].
  intros f. by rewrite str_eq_true.
Qed.

End get_item_more.

(** ** More on the loop *)


Section run_more.

Context (files : list string) (image_base : gmap string (list Byte.byte)).
Context (batch_size : nat).
Context (as_completed : nat → list future → list future).

Hypothesis batch_size_pos : 0 < batch_size.

(** When every batch completes in the order of submission, the stream is
    the input's futures in input order. *)
Lemma stream_in_order fuel : ∀ n input,
  (∀ n l, as_completed n l = l) →
  length input ≤ fuel →
  stream files image_base batch_size as_completed fuel n input
  = submit files image_base input.
Proof.
  induction fuel as [|fuel IH]; intros n input Hid Hlen.
  - by destruct input; [|simpl in Hlen; lia].
  - destruct input as [|x l]; [done|].
    assert (x :: l ≠ []) as Hne by done.
    rewrite stream_cons, Hid, IH by
      (try done;
       pose proof (length_drop_batch batch_size batch_size_pos (x :: l) Hne);
       simpl in *; lia).
    unfold submit. by rewrite <-map_app, take_drop.
Qed.

End run_more.

Section abort_facts.

Context (files : list string) (image_base : gmap string (list Byte.byte)).
Context {Sink : Type} (sink_write : Sink → gmap string pyval → Sink).
Context (batch_size flush_threshold : nat).
Context (as_completed : nat → list future → list future).

Hypothesis as_completed_Permutation : ∀ n l, as_completed n l ≡ₚ l.

(** Every future of a pass that met no failure succeeded. *)
Lemma collect_None_all_Ok l r s r' s' :
  collect sink_write flush_threshold l r s = (r', s', None) →
  Forall (λ fut : future, ∃ out, fut.2 = Ok out) l.
Proof.
  intros H. apply collect_spec in H as (done & outs & _ & Hok & _ & _ & _ & ->).
  induction Hok as [|fut out futs outs' Hout _ IH]; constructor; [by exists out|done].
Qed.

(** The first failure of a pass is the failure of one of its futures. *)
Lemma collect_Some_elem_of l r s r' s' e :
  collect sink_write flush_threshold l r s = (r', s', Some e) →
  ∃ fut : future, fut ∈ l ∧ fut.2 = Raise e.
Proof.
  intros H.
  apply collect_spec in H as (done & outs & _ & _ & _ & _ & _ & fut & rest & -> & Hfut).
  exists fut. split; [|done]. apply elem_of_app. right. apply list_elem_of_here.
Qed.

(** When the loop is left by an exception, the failing record is in the
    last batch submitted and every record of the batches before it was
    packaged. *)
Lemma while_items_aborted fuel : ∀ n st st' e,
  while_items files image_base sink_write batch_size flush_threshold as_completed
    fuel n st = Some (st', Some e) →
  ∃ k,
    submitted st' = submitted st ++ take (S k * batch_size) (items st) ∧
    Forall (λ item, ∃ out, get_item files image_base item = Ok out)
      (take (k * batch_size) (items st)) ∧
    ∃ item,
      item ∈ take batch_size (drop (k * batch_size) (items st)) ∧
      get_item files image_base item = Raise e.
Proof.
  induction fuel as [|fuel IH]; intros n st st' e Hrun.
  - destruct (items st) eqn:E; simpl in Hrun; rewrite E in Hrun; done.
  - destruct (items st) as [|x l] eqn:E.
    { simpl in Hrun. rewrite E in Hrun. done. }
    rewrite while_items_cons in Hrun by (by rewrite E).
    rewrite E in Hrun.
    set (batch := take batch_size (x :: l)) in *.
    set (rest := drop batch_size (x :: l)) in *.
    destruct (collect sink_write flush_threshold (as_completed n (submit files image_base batch))
                (results st) (sink st)) as [[r1 s1] [e'|]] eqn:C.
    + injection Hrun as <- <-. exists 0. cbn [submitted].
      rewrite Nat.mul_1_l, Nat.mul_0_l, take_0, drop_0. fold batch.
      split; [done|]. split; [constructor|].
      apply collect_Some_elem_of in C as (fut & Hin & Hfut).
      rewrite as_completed_Permutation in Hin.
      apply list_elem_of_fmap in Hin as (item & -> & Hitem).
      by exists item.
    + apply IH in Hrun as (k & Hsub & Hall & item & Hitem & Hraise).
      cbn [items submitted] in *. exists (S k).
      split; [|split].
      * rewrite Hsub, <-(assoc_L (++)). f_equal.
        unfold batch, rest. rewrite take_take_drop. f_equal; lia.
      * change (S k * batch_size) with (batch_size + k * batch_size).
        rewrite <-take_take_drop. apply Forall_app. split; [|done].
        apply collect_None_all_Ok in C. rewrite as_completed_Permutation in C.
        apply Forall_forall. intros it Hit.
        apply (proj1 (Forall_forall _ _) C (it, get_item files image_base it)).
        apply list_elem_of_fmap. by exists it.
      * exists item. split; [|done].
        change (S k * batch_size) with (batch_size + k * batch_size).
        by rewrite <-drop_drop.
Qed.




End abort_facts.

Section completed_facts.

Context (files : list string) (image_base : gmap string (list Byte.byte)).
Context {Sink : Type} (sink_write : Sink → gmap string pyval → Sink).
Context (batch_size flush_threshold : nat).
Context (as_completed : nat → list future → list future).

Hypothesis batch_size_pos : 0 < batch_size.
Hypothesis as_completed_Permutation : ∀ n l, as_completed n l ≡ₚ l.


End completed_facts.

(** * Properties of the packaging function *)

(** C2: for a record whose [id] is [id], [get_item] selects exactly the
    listed names whose part before the first [_] is [id], sorts them
    lexicographically and stores the bytes of the [i]-th one (from 0) under
    [str (i+1) ++ ".jpg"]; nothing else is stored as bytes. With no
    matching name the result has the two reserved entries only. For id
    ["42"] and the files [42_2.jpg], [42_1.jpg], [42_0.jpg] the slots are
    [1.jpg], [2.jpg], [3.jpg] with the bytes of [42_0.jpg], [42_1.jpg],
    [42_2.jpg]. A record with an [id] whose listed files can all be read
    is packaged. *)
Theorem get_item_resolves_payloads
    (files : list string) (image_base : gmap string (list Byte.byte)) :
  (∀ item id,
      item !! "id" = Some id →
      (∀ f, f ∈ files → is_Some (image_base !! f)) →
      ∃ s, get_item files image_base item = Ok s) ∧
  (∀ item id s,
      item !! "id" = Some id →
      get_item files image_base item = Ok s →
      ∃ names,
        (∀ f, f ∈ names ↔ f ∈ files ∧ ∃ p, id = JStr p ∧ before_first "_" p f) ∧
        names ≡ₚ filter (λ f, id = JStr (prefix_upto "_" f)) files ∧
        Sorted String.le names ∧
        (∀ i f, names !! i = Some f →
           ∃ b, image_base !! f = Some b ∧
                s !! (str (i + 1) +:+ ".jpg") = Some (VBytes b)) ∧
        (∀ k b, s !! k = Some (VBytes b) →
           ∃ i, i < length names ∧ k = str (i + 1) +:+ ".jpg")) ∧
  (∀ item id,
      item !! "id" = Some id →
      filter (λ f, id = JStr (prefix_upto "_" f)) files = [] →
      get_item files image_base item
      = Ok (<["json" := VRecord item]> {["__key__" := VField id]})) ∧
  (∀ item b0 b1 b2,
      item !! "id" = Some (JStr "42") →
      get_item ["42_2.jpg"; "42_1.jpg"; "42_0.jpg"]
        (<["42_2.jpg" := b2]> (<["42_1.jpg" := b1]> {["42_0.jpg" := b0]})) item
      = Ok (update (<["json" := VRecord item]> {["__key__" := VField (JStr "42")]})
              (<["1.jpg" := b0]> (<["2.jpg" := b1]> {["3.jpg" := b2]})))).
Proof.
  split; [|split; [|split]].
  - intros item id Hid Hread. unfold get_item, getitem. rewrite Hid.
    cbn [mbind result_bind].
    destruct (comprehension_total image_base (item_files files id) 0 ∅)
      as [payload ->]; [|by eexists].
    apply Forall_forall. intros f Hf. apply Hread.
    by apply item_files_elem_of in Hf as [? _].
  - intros item id s Hid Hget.
    apply get_item_Ok in Hget as (id' & payload & Hid' & Hc & ->).
    assert (id' = id) as -> by congruence.
    pose proof (comprehension_Ok _ _ _ _ _ Hc) as [Hslots _].
    exists (item_files files id). split; [apply item_files_elem_of|].
    split.
    { rewrite item_files_Permutation. erewrite list_filter_iff; [done|].
      intros f. by rewrite str_eq_true. }
    split; [apply item_files_Sorted|]. split.
    + intros i f Hi. destruct (Hslots i f Hi) as (b & Hb & Hs).
      exists b. split; [done|]. by apply update_lookup_bytes.
    + intros k b Hk.
      destruct (payload !! k) as [b'|] eqn:Hp.
      { destruct (comprehension_keys _ _ _ _ _ k Hc) as [[? Hin]|?];
          [by rewrite Hp|by rewrite lookup_empty in Hin|done]. }
      rewrite update_lookup_other in Hk by done.
      destruct (decide (k = "json")) as [->|?];
        [by rewrite lookup_insert_eq in Hk|].
      rewrite lookup_insert_ne in Hk by done.
      destruct (decide (k = "__key__")) as [->|?];
        [by rewrite lookup_singleton_eq in Hk|].
      by rewrite lookup_singleton_ne in Hk.
  - intros item id Hid Hnone. unfold get_item, getitem. rewrite Hid. simpl.
    assert (item_files files id = []) as ->.
    { apply Permutation_nil_r. rewrite item_files_Permutation.
      erewrite list_filter_iff; [by rewrite Hnone|].
      intros f. by rewrite str_eq_true. }
    simpl. f_equal. all: unfold update; by rewrite fmap_empty, (left_id_L ∅ (∪)).
  - intros item b0 b1 b2 Hid. unfold get_item, getitem. rewrite Hid.
    cbn [mbind result_bind].
    assert (item_files ["42_2.jpg"; "42_1.jpg"; "42_0.jpg"] (JStr "42")
            = ["42_0.jpg"; "42_1.jpg"; "42_2.jpg"]) as -> by (by vm_compute).
    assert (comprehension
              (<["42_2.jpg" := b2]> (<["42_1.jpg" := b1]> {["42_0.jpg" := b0]})) 0
              ["42_0.jpg"; "42_1.jpg"; "42_2.jpg"] ∅
            = Ok (<["1.jpg" := b0]> (<["2.jpg" := b1]> {["3.jpg" := b2]}))) as ->
      by (vm_cast_no_check
            (eq_refl (Ok (<["1.jpg" := b0]> (<["2.jpg" := b1]>
                            ({["3.jpg" := b2]} : gmap string (list Byte.byte))))))).
    done.
Qed.

Lemma get_item_resolves_payloads_witness :
  ∃ names,
    names ≡ₚ filter (λ f, JStr "7" = JStr (prefix_upto "_" f)) listing ∧
    Sorted String.le names ∧
    (∀ i f, names !! i = Some f →
       ∃ b, directory !! f = Some b ∧
            packaged_7 !! (str (i + 1) +:+ ".jpg") = Some (VBytes b)).
Proof.
  destruct (proj1 (proj2 (get_item_resolves_payloads listing directory))
              record_7 (JStr "7") packaged_7 eq_refl eq_refl)
    as (names & _ & ? & ? & ? & _).
  by exists names.
Defined.

(** C8: the names chosen for a record and their slots do not depend on the
    order in which the directory is listed, so a second run on the same
    listing and record resolves the same files to the same slots. *)
Theorem get_item_deterministic
    (files1 files2 : list string) (image_base : gmap string (list Byte.byte))
    (item : gmap string json) :
  files1 ≡ₚ files2 →
  (∀ id, item_files files1 id = item_files files2 id) ∧
  get_item files1 image_base item = get_item files2 image_base item.
Proof.
  intros Hperm.
  assert (∀ id, item_files files1 id = item_files files2 id) as Hsame.
  { intros id. apply (Sorted_unique String.le); try apply item_files_Sorted.
    by rewrite !item_files_Permutation, Hperm. }
  split; [done|]. unfold get_item.
  destruct (getitem item "id") as [id|e]; simpl; [|done]. by rewrite Hsame.
Qed.

Lemma get_item_deterministic_witness :
  get_item listing directory record_7 = get_item (reverse listing) directory record_7.
Proof.
  apply (get_item_deterministic listing (reverse listing) directory record_7).
  symmetry. apply reverse_Permutation.
Defined.

(** C10: the dictionary [get_item] returns maps ["__key__"] to the record's
    id and ["json"] to the whole record; the payload merged into it has no
    entry under either name, every one of its keys being [str N ++ ".jpg"]
    with [N >= 1]. *)
Theorem get_item_reserved_entries
    (files : list string) (image_base : gmap string (list Byte.byte))
    (item : gmap string json) (s : gmap string pyval) :
  get_item files image_base item = Ok s →
  ∃ id payload,
    item !! "id" = Some id ∧
    s !! "__key__" = Some (VField id) ∧
    s !! "json" = Some (VRecord item) ∧
    comprehension image_base 0 (item_files files id) ∅ = Ok payload ∧
    s = update (<["json" := VRecord item]> {["__key__" := VField id]}) payload ∧
    payload !! "__key__" = None ∧
    payload !! "json" = None ∧
    (∀ k, is_Some (payload !! k) →
       ∃ N, 1 ≤ N ∧ k = str N +:+ ".jpg" ∧ k ≠ "__key__" ∧ k ≠ "json").
Proof.
  intros Hget. apply get_item_Ok in Hget as (id & payload & Hid & Hc & ->).
  exists id, payload.
  assert (∀ k, is_Some (payload !! k) →
            ∃ i, i < length (item_files files id) ∧ k = slot i) as Hkeys.
  { intros k Hk.
    destruct (comprehension_keys _ _ _ _ _ k Hc Hk) as [[? Hin]|?]; [|done].
    by rewrite lookup_empty in Hin. }
  assert (payload !! "__key__" = None) as Hkey.
  { destruct (payload !! "__key__") eqn:E; [|done].
    destruct (Hkeys "__key__") as (i & _ & Hi); [by rewrite E|].
    by destruct (slot_not_key i). }
  assert (payload !! "json" = None) as Hjson.
  { destruct (payload !! "json") eqn:E; [|done].
    destruct (Hkeys "json") as (i & _ & Hi); [by rewrite E|].
    by destruct (slot_not_json i). }
  split; [done|]. split.
  { rewrite update_lookup_other by done.
    rewrite lookup_insert_ne by done. apply lookup_singleton_eq. }
  split.
  { rewrite update_lookup_other by done. apply lookup_insert_eq. }
  do 4 (split; [done|]).
  intros k Hk. destruct (Hkeys k Hk) as (i & _ & ->).
  exists (i + 1). split; [lia|]. split; [done|].
  split; [apply slot_not_key|apply slot_not_json].
Qed.

Lemma get_item_reserved_entries_witness :
  packaged_7 !! "__key__" = Some (VField (JStr "7")) ∧
  packaged_7 !! "json" = Some (VRecord record_7).
Proof.
  destruct (get_item_reserved_entries listing directory record_7 packaged_7 eq_refl)
    as (id & payload & Hid & ? & ? & _).
  injection Hid as <-. done.
Defined.

(** * Properties of the batching loop *)

(** C1: in a completed run the records written to the shards are the
    results of the input records, each exactly once (in some order), so
    the shards hold as many records as the input has. *)
Theorem all_records_written_once
    (files : list string) (image_base : gmap string (list Byte.byte))
    (written_bytes : gmap string pyval → N) (pol : ShardingPolicy)
    (batch_size flush_threshold : nat)
    (as_completed : nat → list future → list future)
    (fuel : nat) (input : list (gmap string json))
    (st : state (ShardWriter (gmap string pyval))) :
  0 < batch_size →
  (∀ n l, as_completed n l ≡ₚ l) →
  length input ≤ fuel →
  run files image_base (write written_bytes pol) batch_size flush_threshold
    as_completed fuel input opened = Some (st, Completed) →
  (∃ order,
      order ≡ₚ input ∧
      Forall2 (λ item out, get_item files image_base item = Ok out)
        order (written (sink st))) ∧
  length (written (sink st)) = length input ∧
  sum_list (length <$> shards (sink st)) = length input ∧
  currentCount (sink st) = length (current (sink st)).
Proof.
  intros Hpos Hperm Hlen Hrun.
  destruct (run_completed _ _ _ _ _ _ Hpos _ _ _ _ Hlen Hrun)
    as (outs & flushes & Hok & Hsink & _).
  assert (written (sink st) = outs) as Hwritten.
  { by rewrite Hsink, written_foldl. }
  assert (∃ order, order ≡ₚ input ∧
            Forall2 (λ item out, get_item files image_base item = Ok out) order outs)
    as (order & Horder & Hall).
  { eapply succeeded_batch; [|done]. by apply stream_Permutation. }
  assert (length outs = length input) as Hcount.
  { by rewrite <-(Forall2_length _ _ _ Hall), Horder. }
  rewrite shards_total, Hwritten.
  split; [by exists order|]. split; [done|]. split; [done|].
  rewrite Hsink. by apply count_foldl.
Qed.

Lemma all_records_written_once_witness :
  run listing directory (write entry_bytes small_policy) 2 1 reversed 5
    five_records opened = Some (five_final, Completed) ∧
  sum_list (length <$> shards (sink five_final)) = 5.
Proof.
  assert (run listing directory (write entry_bytes small_policy) 2 1 reversed 5
            five_records opened = Some (five_final, Completed)) as Hrun
    by (vm_cast_no_check (eq_refl (Some (five_final, Completed)))).
  split; [exact Hrun|].
  eapply (all_records_written_once listing directory entry_bytes small_policy
            2 1 reversed 5 five_records five_final).
  - lia.
  - intros n l. apply reverse_Permutation.
  - simpl. lia.
  - exact Hrun.
Defined.







(** C7: the records are submitted in input order, in consecutive batches
    of [batch_size] (the last one shorter when the input runs out). The
    futures the loop meets follow the batches: all of one batch, in the
    order they completed, before any of the next; the results written
    follow the futures met. In a completed run the sink has received, batch
    after batch, the results of each batch's records in the order of
    completion. *)
Theorem batches_written_in_order
    (files : list string) (image_base : gmap string (list Byte.byte))
    {Sink : Type} (sink_write : Sink → gmap string pyval → Sink)
    (batch_size flush_threshold : nat)
    (as_completed : nat → list future → list future)
    (fuel : nat) (input : list (gmap string json)) (s0 : Sink)
    (st : state Sink) (o : outcome) :
  0 < batch_size →
  (∀ n l, as_completed n l ≡ₚ l) →
  length input ≤ fuel →
  run files image_base sink_write batch_size flush_threshold as_completed
    fuel input s0 = Some (st, o) →
  ∃ batches completions done outs ws,
    input = concat batches ++ items st ∧
    submitted st = concat batches ∧
    batches_of batch_size batches ∧
    Forall2 (λ batch comp, comp ≡ₚ submit files image_base batch) batches completions ∧
    done `prefix_of` concat completions ∧
    succeeded done outs ∧
    ws `prefix_of` outs ∧
    sink st = foldl sink_write s0 ws ∧
    (o = Completed →
       items st = [] ∧ done = concat completions ∧ ws = outs ∧
       ∃ outss,
         outs = concat outss ∧
         Forall2 (λ batch out,
                    ∃ order, order ≡ₚ batch ∧
                             Forall2 (λ item r, get_item files image_base item = Ok r)
                               order out)
           batches outss).
Proof.
  intros Hpos Hperm Hlen Hrun. destruct o as [|e].
  - destruct (run_completed _ _ _ _ _ _ Hpos _ _ _ _ Hlen Hrun)
      as (outs & flushes & Hok & Hsink & _ & _ & _ & _ & Hitems & Hsub).
    destruct (stream_batches files image_base batch_size as_completed Hpos Hperm
                fuel 0 input Hlen)
      as (batches & comps & Hcat & Hsizes & Hcomp & Hstream).
    rewrite Hstream in Hok.
    exists batches, comps, (concat comps), outs, outs.
    rewrite Hitems, app_nil_r, Hsub.
    do 7 (split; [done|]). split; [done|]. intros _. do 3 (split; [done|]).
    destruct (succeeded_concat_inv _ _ Hok) as (outss & -> & Hall).
    exists outss. split; [done|]. by eapply succeeded_batches.
  - destruct (run_aborted _ _ _ _ _ _ Hpos _ _ _ _ _ Hlen Hrun)
      as (done & fut & rest & outs & flushes & k & Hstream & Hfut & Hok & Hout
          & Hsink & Hin & Hk & Hsub).
    assert (length (submitted st) ≤ fuel) as Hlen'.
    { rewrite Hin, length_app in Hlen. lia. }
    destruct (stream_batches files image_base batch_size as_completed Hpos Hperm
                fuel 0 (submitted st) Hlen')
      as (batches & comps & Hcat & Hsizes & Hcomp & Hstream').
    exists batches, comps, done, outs, (concat flushes).
    split; [by rewrite Hcat|]. do 3 (split; [done|]).
    split; [rewrite <-Hstream', Hstream; by eexists|].
    split; [done|]. split; [rewrite <-Hout; by eexists|].
    split; [done|]. discriminate.
Qed.

Lemma batches_written_in_order_witness :
  run listing directory (write entry_bytes small_policy) 2 1 reversed 5
    five_records opened = Some (five_final, Completed) ∧
  ∃ batches outss,
    concat batches = five_records ∧
    batches_of 2 batches ∧
    Forall2 (λ batch out, length out = length batch) batches outss ∧
    sink five_final = foldl (write entry_bytes small_policy) opened (concat outss).
Proof.
  assert (run listing directory (write entry_bytes small_policy) 2 1 reversed 5
            five_records opened = Some (five_final, Completed)) as Hrun
    by (vm_cast_no_check (eq_refl (Some (five_final, Completed)))).
  split; [exact Hrun|].
  destruct (batches_written_in_order listing directory
              (write entry_bytes small_policy) 2 1 reversed 5
              five_records opened five_final Completed
              ltac:(lia) ltac:(intros; apply reverse_Permutation) ltac:(simpl; lia)
              Hrun)
    as (batches & comps & done & outs & ws & Hin & _ & Hsizes & _ & _ & _ & _ & Hsink & Hend).
  destruct (Hend eq_refl) as (_ & _ & -> & outss & -> & Hall).
  exists batches, outss.
  cbn [items] in Hin. rewrite app_nil_r in Hin.
  split; [symmetry; exact Hin|]. split; [exact Hsizes|]. split; [|exact Hsink].
  eapply Forall2_impl; [exact Hall|].
  intros batch out (order & Horder & Hres). cbn beta.
  rewrite <-(Forall2_length _ _ _ Hres), Horder. reflexivity.
Defined.



(** * Properties of the shard writer *)

(** C3, as the writer does it: with [maxCount >= 1], the writer starts
    within both caps, after every write [currentCount <= maxCount], and [currentSizeBytes] is the size the
    shard had when the item was accepted, which is 0 for a fresh shard and
    below [maxSizeBytes] otherwise, plus the size of that item. So the size
    can be above [maxSizeBytes] only right after the write that crossed
    the cap, whatever the size of the crossing item. Before each item the
    writer checks [currentCount >= maxCount] or
    [currentSizeBytes >= maxSizeBytes] and, if so, closes the shard, opens
    the next one with the index incremented by 1 and both counters at
    zero. *)
Theorem shard_caps_checked_between_items
    {Item : Type} (written_bytes : Item → N) (pol : ShardingPolicy) :
  1 ≤ maxCount pol →
  (currentCount (@opened Item) ≤ maxCount pol ∧
   (currentSizeBytes (@opened Item) ≤ maxSizeBytes pol)%N) ∧
  (∀ (xs : list Item) (x : Item),
      let w0 := accept pol (foldl (write written_bytes pol) opened xs) in
      let w := foldl (write written_bytes pol) opened (xs ++ [x]) in
      currentCount w ≤ maxCount pol ∧
      currentSizeBytes w = (currentSizeBytes w0 + written_bytes x)%N ∧
      (currentSizeBytes w0 = 0 ∨ currentSizeBytes w0 < maxSizeBytes pol)%N ∧
      (currentSizeBytes w ≤ maxSizeBytes pol + written_bytes x)%N) ∧
  (∀ (w : ShardWriter Item) (x : Item),
      (full pol w = true ↔
       maxCount pol ≤ currentCount w ∨ (maxSizeBytes pol ≤ currentSizeBytes w)%N) ∧
      (full pol w = true →
       write written_bytes pol w x
       = {| index := index w + 1; currentCount := 1;
            currentSizeBytes := written_bytes x;
            closed := closed w ++ [current w]; current := [x] |}) ∧
      (full pol w = false →
       write written_bytes pol w x
       = {| index := index w; currentCount := currentCount w + 1;
            currentSizeBytes := currentSizeBytes w + written_bytes x;
            closed := closed w; current := current w ++ [x] |})).
Proof.
  intros Hmax. split; [|split].
  - simpl. split; lia.
  - intros xs x. cbv zeta. rewrite foldl_app. simpl.
    set (w := foldl (write written_bytes pol) opened xs).
    destruct (accept_below pol w) as [(Hc & Hs & _)|(Hc & Hs & _)].
    + rewrite Hc, Hs. split; [lia|]. split; [done|]. split; [by left|lia].
    + split; [lia|]. split; [done|]. split; [by right|lia].
  - intros w x. split; [apply full_iff|]. split.
    + apply write_full.
    + apply write_not_full.
Qed.

Lemma shard_caps_checked_between_items_witness :
  let w := foldl (write (λ x : N, x) sink_policy) opened
             ([2000000000; 2000000000] ++ [2000000000])%N in
  currentCount w ≤ 1000 ∧ (currentSizeBytes w ≤ 3000000000 + 2000000000)%N.
Proof.
  destruct (proj1 (proj2 (shard_caps_checked_between_items (λ x : N, x) sink_policy
                            ltac:(vm_compute; lia)))
              [2000000000; 2000000000]%N 2000000000%N)
    as (Hcount & _ & _ & Hsize).
  split; [exact Hcount|exact Hsize].
Defined.

(** Two items of 2e9 bytes under the script's policy: after the second
    one the shard holds 4e9 bytes, above the cap of 3e9, and neither item
    is larger than the cap. *)
Lemma size_cap_crossed_by_small_items :
  let w := foldl (write (λ x : N, x) sink_policy) opened
             [2000000000; 2000000000]%N in
  index w = 0 ∧
  current w = [2000000000; 2000000000]%N ∧
  ¬ (currentSizeBytes w ≤ maxSizeBytes sink_policy)%N ∧
  ¬ (maxSizeBytes sink_policy < 2000000000)%N.
Proof. vm_compute. repeat split; try done; intros H; by apply H. Qed.

(** C6: an item larger than [maxSizeBytes] is stored whole in the shard
    that is current once the check before it has been made; after it the
    shard is full, so the next write closes it and starts the next shard.
    When the item went into a fresh shard, the shard closed holds that
    item only. *)
Theorem oversized_item_written_whole
    {Item : Type} (written_bytes : Item → N) (pol : ShardingPolicy)
    (w : ShardWriter Item) (x y : Item) :
  (maxSizeBytes pol < written_bytes x)%N →
  let w0 := accept pol w in
  let w1 := write written_bytes pol w x in
  let w2 := write written_bytes pol w1 y in
  index w1 = index w0 ∧
  closed w1 = closed w0 ∧
  current w1 = current w0 ++ [x] ∧
  written w1 = written w ++ [x] ∧
  full pol w1 = true ∧
  index w2 = index w1 + 1 ∧
  closed w2 = closed w1 ++ [current w0 ++ [x]] ∧
  current w2 = [y] ∧
  (current w0 = [] → closed w2 = closed w1 ++ [[x]]).
Proof.
  intros Hbig. cbv zeta.
  assert (full pol (write written_bytes pol w x) = true) as Hfull.
  { apply full_iff. right. unfold write. cbn [currentSizeBytes]. lia. }
  rewrite (write_full _ _ (write written_bytes pol w x) y Hfull).
  cbn [index closed current]. rewrite written_write.
  unfold write. cbn [index closed current].
  do 8 (split; [done|]). by intros ->.
Qed.

Lemma oversized_item_written_whole_witness :
  let w1 := write (λ x : N, x) sink_policy opened 4000000000%N in
  let w2 := write (λ x : N, x) sink_policy w1 5%N in
  shards w1 = [[4000000000%N]] ∧ shards w2 = [[4000000000%N]; [5%N]] ∧ index w2 = 1.
Proof.
  destruct (oversized_item_written_whole (λ x : N, x) sink_policy opened
              4000000000%N 5%N ltac:(vm_compute; done))
    as (_ & _ & _ & _ & _ & Hi & _).
  split; [done|]. split; [done|]. exact Hi.
Defined.

(** * Further properties of [get_item] *)

(** X1: [get_item] raises exactly in two cases: the record has no [id]
    (a [KeyError] for ["id"]), or some listed file of the record cannot be
    read, and then the [OSError] names the first such file in sorted
    order. *)
Theorem get_item_raises
    (files : list string) (image_base : gmap string (list Byte.byte))
    (item : gmap string json) (e : exn) :
  get_item files image_base item = Raise e ↔
  (item !! "id" = None ∧ e = KeyError "id") ∨
  (∃ id f,
      item !! "id" = Some id ∧ e = OSError f ∧
      f ∈ files ∧ id = JStr (prefix_upto "_" f) ∧ image_base !! f = None ∧
      ∀ g, g ∈ files → id = JStr (prefix_upto "_" g) → image_base !! g = None →
           String.le f g).
Proof.
  assert (∀ id g, g ∈ item_files files id ↔ g ∈ files ∧ id = JStr (prefix_upto "_" g))
    as Hmem.
  { intros id g. by rewrite item_files_of_filter, list_elem_of_filter, (comm (∧)). }
  assert (∀ id pre f post g,
            item_files files id = pre ++ f :: post → g ∈ post → String.le f g)
    as Hsorted.
  { intros id pre f post g Hnames Hg.
    pose proof (item_files_Sorted files id) as Hs. rewrite Hnames in Hs.
    apply (Sorted_StronglySorted _) in Hs.
    apply StronglySorted_app_1_r, StronglySorted_cons in Hs as [Hall _].
    by apply (proj1 (Forall_forall _ _) Hall). }
  unfold get_item, getitem. destruct (item !! "id") as [id|] eqn:Hid;
    cbn [mbind result_bind].
  - destruct (comprehension image_base 0 (item_files files id) ∅) as [payload|e']
      eqn:Hc; cbn [mbind result_bind].
    + split; [done|]. intros [[? _]|(id' & f & [= <-] & -> & Hf & Hpre & Hnone & _)];
        [done|].
      assert (f ∈ item_files files id) as Hin by (by apply Hmem).
      apply list_elem_of_lookup in Hin as [i Hi].
      destruct (proj1 (comprehension_Ok _ _ _ _ _ Hc) i f Hi) as (b & Hb & _).
      congruence.
    + pose proof (proj1 (comprehension_Raise _ _ _ _ _) Hc)
        as (pre & f & post & Hnames & Hread & Hnone & ->).
      assert (f ∈ item_files files id) as Hin.
      { rewrite Hnames. apply elem_of_app. right. apply list_elem_of_here. }
      split.
      * intros [= <-]. right. exists id, f.
        apply Hmem in Hin as [? ?]. do 5 (split; [done|]).
        intros g Hg Hgid Hgnone.
        assert (g ∈ pre ++ f :: post) as Hg' by (rewrite <-Hnames; by apply Hmem).
        apply elem_of_app in Hg' as [Hg'|Hg'].
        { apply (proj1 (Forall_forall _ _) Hread) in Hg' as [? ?]. congruence. }
        apply elem_of_cons in Hg' as [->|Hg']; [done|].
        by eapply Hsorted.
      * intros [[? _]|(id' & f' & [= <-] & -> & Hf' & Hpre' & Hnone' & Hleast)];
          [done|].
        do 2 f_equal. apply (anti_symm String.le).
        -- assert (f' ∈ pre ++ f :: post) as Hg' by (rewrite <-Hnames; by apply Hmem).
           apply elem_of_app in Hg' as [Hg'|Hg'].
           { apply (proj1 (Forall_forall _ _) Hread) in Hg' as [? ?]. congruence. }
           apply elem_of_cons in Hg' as [->|Hg']; [done|].
           by eapply Hsorted.
        -- apply Hmem in Hin as [? ?]. by apply Hleast.
  - split.
    + intros [= <-]. by left.
    + intros [[_ ->]|(id & f & ? & _)]; [done|congruence].
Qed.

Lemma get_item_raises_witness :
  get_item listing directory record_9 = Raise (OSError "9_0.jpg").
Proof.
  apply (get_item_raises listing directory record_9 (OSError "9_0.jpg")).
  right. exists (JStr "9"), "9_0.jpg".
  split; [reflexivity|]. split; [reflexivity|].
  split; [by vm_compute; repeat (apply list_elem_of_here || apply list_elem_of_further)|].
  split; [reflexivity|]. split; [reflexivity|].
  intros g Hg Hid _.
  unfold listing in Hg.
  repeat (apply elem_of_cons in Hg as [->|Hg]); try discriminate Hid;
    [by vm_compute|by apply elem_of_nil in Hg].
Defined.

(** X2: a record whose [id] is not a string matches no file name, whatever
    the directory holds: the result has the two reserved entries only. *)
Theorem get_item_non_string_id
    (files : list string) (image_base : gmap string (list Byte.byte))
    (item : gmap string json) (id : json) :
  item !! "id" = Some id →
  (∀ s, id ≠ JStr s) →
  get_item files image_base item
  = Ok (<["json" := VRecord item]> {["__key__" := VField id]}).
Proof.
  intros Hid Hno. apply get_item_no_files; [done|].
  intros f _ Heq. by apply (Hno (prefix_upto "_" f)).
Qed.

Lemma get_item_non_string_id_witness :
  get_item listing directory record_int
  = Ok (<["json" := VRecord record_int]> {["__key__" := VField (JInt 42)]}).
Proof.
  apply (get_item_non_string_id listing directory record_int (JInt 42)).
  - reflexivity.
  - intros s. discriminate.
Defined.

(** X3: an [id] that contains an underscore matches no file name, since
    the first field of a name never contains one: such a record is
    packaged without payload, even when a file has exactly its name. *)
Theorem get_item_id_with_underscore
    (files : list string) (image_base : gmap string (list Byte.byte))
    (item : gmap string json) (u v : string) :
  item !! "id" = Some (JStr (u +:+ String "_" v)) →
  get_item files image_base item
  = Ok (<["json" := VRecord item]>
          {["__key__" := VField (JStr (u +:+ String "_" v))]}).
Proof.
  intros Hid. apply get_item_no_files; [done|].
  intros f _ [= Heq]. by apply (prefix_upto_no_sep "_" f u v).
Qed.

Lemma get_item_id_with_underscore_witness :
  get_item listing directory record_underscore
  = Ok (<["json" := VRecord record_underscore]>
          {["__key__" := VField (JStr "42_1.jpg")]}).
Proof.
  apply (get_item_id_with_underscore listing directory record_underscore "42" "1.jpg").
  reflexivity.
Defined.

(** X4: the keys of a packaged sample are ["__key__"], ["json"] and the
    slots [1.jpg] to [N.jpg] without a gap, [N] being the number of listed
    names of the record: [N + 2] entries. *)
Theorem get_item_key_set
    (files : list string) (image_base : gmap string (list Byte.byte))
    (item : gmap string json) (id : json) (s : gmap string pyval) :
  item !! "id" = Some id →
  get_item files image_base item = Ok s →
  let N := length (filter (λ f, id = JStr (prefix_upto "_" f)) files) in
  (∀ k, is_Some (s !! k) ↔
        k = "__key__" ∨ k = "json" ∨ ∃ i, i < N ∧ k = str (i + 1) +:+ ".jpg") ∧
  size s = N + 2.
Proof.
  intros Hid Hget. cbv zeta.
  apply get_item_Ok in Hget as (id' & payload & Hid' & Hc & ->).
  assert (id' = id) as -> by congruence.
  rewrite <-(Permutation_length (item_files_of_filter files id)).
  pose proof (comprehension_Ok _ _ _ _ _ Hc) as [Hslots _].
  assert (∀ k, is_Some (payload !! k) ↔
               ∃ i, i < length (item_files files id) ∧ k = slot i) as Hkeys.
  { intros k. split.
    - intros Hk. destruct (comprehension_keys _ _ _ _ _ k Hc Hk) as [[? Hin]|?]; [|done].
      by rewrite lookup_empty in Hin.
    - intros (i & Hi & ->). apply lookup_lt_is_Some in Hi as [f Hf].
      destruct (Hslots i f Hf) as (b & _ & Hb). exists b. exact Hb. }
  assert (payload !! "__key__" = None) as Hkey.
  { apply eq_None_not_Some. intros (i & _ & Hi)%Hkeys. by destruct (slot_not_key i). }
  assert (payload !! "json" = None) as Hjson.
  { apply eq_None_not_Some. intros (i & _ & Hi)%Hkeys. by destruct (slot_not_json i). }
  split.
  - intros k. unfold update. rewrite lookup_union_is_Some, lookup_fmap, fmap_is_Some.
    rewrite Hkeys, lookup_insert_is_Some, lookup_singleton_is_Some.
    split.
    + intros [?|[->|[_ ->]]]; auto.
    + intros [->|[->|?]]; auto.
  - unfold update. rewrite map_size_disj_union.
    + rewrite map_size_fmap, (comprehension_size _ _ _ _ _ (λ _, lookup_empty _) Hc).
      rewrite map_size_insert_None by done.
      rewrite map_size_empty, map_size_singleton. lia.
    + apply map_disjoint_spec. intros k x y Hx Hy.
      rewrite lookup_fmap in Hx.
      destruct (decide (k = "json")) as [->|?]; [by rewrite Hjson in Hx|].
      rewrite lookup_insert_ne in Hy by done.
      destruct (decide (k = "__key__")) as [->|?]; [by rewrite Hkey in Hx|].
      by rewrite lookup_singleton_ne in Hy.
Qed.

Lemma get_item_key_set_witness : size packaged_42 = 3 + 2.
Proof.
  apply (get_item_key_set listing directory record_42 (JStr "42") packaged_42).
  - reflexivity.
  - vm_cast_no_check (eq_refl (Ok packaged_42)).
Defined.

(** X5: [get_item] looks at the files of its own record only: two
    listings with the same names for the record's id, and two directories
    that hold the same bytes under those names, give the same result,
    whatever else they list or hold. *)
Theorem get_item_only_matching_files
    (files1 files2 : list string) (image_base1 image_base2 : gmap string (list Byte.byte))
    (item : gmap string json) :
  (∀ id, item !! "id" = Some id →
     filter (λ f, id = JStr (prefix_upto "_" f)) files1
     ≡ₚ filter (λ f, id = JStr (prefix_upto "_" f)) files2 ∧
     ∀ f, f ∈ files1 → id = JStr (prefix_upto "_" f) →
          image_base1 !! f = image_base2 !! f) →
  get_item files1 image_base1 item = get_item files2 image_base2 item.
Proof.
  intros Hsame. unfold get_item, getitem.
  destruct (item !! "id") as [id|]; [|done]. cbn [mbind result_bind].
  destruct (Hsame id eq_refl) as [Hperm Hbytes].
  assert (item_files files1 id = item_files files2 id) as Hnames.
  { apply (Sorted_unique String.le); try apply item_files_Sorted.
    by rewrite !item_files_of_filter. }
  rewrite <-Hnames.
  rewrite (comprehension_ext image_base1 image_base2); [done|].
  intros f Hf. rewrite item_files_of_filter in Hf.
  apply list_elem_of_filter in Hf as [? ?]. by apply Hbytes.
Qed.

Lemma get_item_only_matching_files_witness :
  get_item listing directory record_7
  = get_item ["7_a.jpg"; "7_b.jpg"]
      (<["7_a.jpg" := [Byte.x0a] ]> {["7_b.jpg" := [Byte.x0b] ]}) record_7.
Proof.
  apply (get_item_only_matching_files listing ["7_a.jpg"; "7_b.jpg"] directory
           (<["7_a.jpg" := [Byte.x0a] ]> {["7_b.jpg" := [Byte.x0b] ]}) record_7).
  intros id [= <-]. split.
  - vm_compute. apply perm_swap.
  - intros f Hf Hid. unfold listing in Hf.
    repeat (apply elem_of_cons in Hf as [->|Hf]); try discriminate Hid;
      [reflexivity|reflexivity|by apply elem_of_nil in Hf].
Defined.

(** * Further properties of the loop *)



(** X8: when the futures of every batch complete in the order they were
    submitted, a completed run hands the sink the results of the input
    records in input order. *)
Theorem in_order_completion_keeps_input_order
    (files : list string) (image_base : gmap string (list Byte.byte))
    {Sink : Type} (sink_write : Sink → gmap string pyval → Sink)
    (batch_size flush_threshold : nat)
    (as_completed : nat → list future → list future)
    (fuel : nat) (input : list (gmap string json)) (s0 : Sink) (st : state Sink) :
  0 < batch_size →
  (∀ n l, as_completed n l = l) →
  length input ≤ fuel →
  run files image_base sink_write batch_size flush_threshold as_completed
    fuel input s0 = Some (st, Completed) →
  ∃ outs,
    Forall2 (λ item out, get_item files image_base item = Ok out) input outs ∧
    sink st = foldl sink_write s0 outs.
Proof.
  intros Hpos Hid Hlen Hrun.
  destruct (run_completed _ _ _ _ _ _ Hpos _ _ _ _ Hlen Hrun)
    as (outs & _ & Hok & Hsink & _).
  rewrite (stream_in_order _ _ _ _ Hpos _ 0 _ Hid Hlen) in Hok.
  exists outs. split; [|done].
  rewrite <-(submit_fst files image_base input).
  apply succeeded_fst; [|done].
  intros fut Hfut. apply list_elem_of_fmap in Hfut as (item & -> & _). done.
Qed.

Lemma in_order_completion_keeps_input_order_witness :
  ∃ outs,
    Forall2 (λ item out, get_item listing directory item = Ok out) three_records outs ∧
    sink three_final = foldl (write entry_bytes small_policy) opened outs.
Proof.
  apply (in_order_completion_keeps_input_order listing directory
           (write entry_bytes small_policy) 2 1 in_order 3 three_records opened
           three_final).
  - lia.
  - reflexivity.
  - simpl. lia.
  - vm_cast_no_check (eq_refl (Some (three_final, Completed))).
Defined.

(** X9: when a run is aborted, the record that failed is in the last batch
    submitted, and every record of the batches before that one was
    packaged without error. *)
Theorem failure_is_in_last_submitted_batch
    (files : list string) (image_base : gmap string (list Byte.byte))
    {Sink : Type} (sink_write : Sink → gmap string pyval → Sink)
    (batch_size flush_threshold : nat)
    (as_completed : nat → list future → list future)
    (fuel : nat) (input : list (gmap string json)) (s0 : Sink)
    (st : state Sink) (e : exn) :
  (∀ n l, as_completed n l ≡ₚ l) →
  run files image_base sink_write batch_size flush_threshold as_completed
    fuel input s0 = Some (st, Aborted e) →
  ∃ k,
    submitted st = take ((k + 1) * batch_size) input ∧
    Forall (λ item, ∃ out, get_item files image_base item = Ok out)
      (take (k * batch_size) input) ∧
    ∃ item,
      item ∈ take batch_size (drop (k * batch_size) input) ∧
      get_item files image_base item = Raise e.
Proof.
  intros Hperm Hrun. unfold run in Hrun.
  destruct (while_items _ _ _ _ _ _ _ _ _) as [[st' [e'|]]|] eqn:Hloop; [|done..].
  injection Hrun as <- <-.
  apply (while_items_aborted _ _ _ _ _ _ Hperm) in Hloop as (k & Hsub & Hall & Hitem).
  cbn [items submitted] in *. exists k.
  replace (k + 1) with (S k) by lia. done.
Qed.

Lemma failure_is_in_last_submitted_batch_witness :
  ∃ k,
    submitted failing_final = take ((k + 1) * 2) failing_records ∧
    Forall (λ item, ∃ out, get_item listing directory item = Ok out)
      (take (k * 2) failing_records).
Proof.
  destruct (failure_is_in_last_submitted_batch listing directory
              (write entry_bytes small_policy) 2 1 in_order 5 failing_records opened
              failing_final (OSError "9_0.jpg")
              ltac:(intros; reflexivity)
              ltac:(vm_cast_no_check
                      (eq_refl (Some (failing_final, Aborted (OSError "9_0.jpg"))))))
    as (k & Hsub & Hall & _).
  exists k. exact (conj Hsub Hall).
Defined.
